(** * A fixed-capacity arena and the linked stack it backs

    Shallow embedding of [src/main.cpp]: the memory resource
    [FixedBufferResource] (first-fit reuse of freed blocks, then bump
    allocation) and the node-based [Stack<T>] whose nodes live in it.

    Conventions.
    - [std::size_t] and pointers are 64-bit unsigned: a value is a [Z] in
      [0, 2^64) and every arithmetic operation of the source is followed
      by [wrap].  The null pointer is the address [0].
    - A [throw] is a value of [result]; a function that can leave a
      changed state behind when it throws returns an [outcome].
    - The stack object holds pointers only; the memory resource its
      allocator points to and the nodes are kept in a [Memory] that the
      operations take and return.
    - Using a pointer to a node that is not alive, or an allocator that
      points to no resource, is undefined behaviour in C++; the model
      returns [None] there. *)

From stdpp Require Import gmap list.
From Stdlib Require Import ZArith Lia.

Local Open Scope Z_scope.

(** ** Machine integers *)

Definition size_bits : Z := 64.
Definition size_mod : Z := 2 ^ size_bits.
Definition wrap (z : Z) : Z := z mod size_mod.

(** A value that fits [std::size_t] (or a pointer). *)
Definition in_range (z : Z) : Prop := 0 <= z < size_mod.

(** An alignment the allocator's contract admits: a power of two that
    fits [std::size_t]. *)
Definition is_pow2 (alignment : Z) : Prop :=
  exists k, 0 <= k < size_bits /\ alignment = 2 ^ k.

(** ** Exceptions *)

Inductive exn : Type :=
| bad_alloc
| ctor_failure.

Inductive result (A : Type) : Type :=
| Ok (a : A)
| Throw (e : exn).
Arguments Ok {A} a.
Arguments Throw {A} e.

(** ** [std::align]

    The library function the allocator calls twice.  It takes [ptr] and
    [space] by reference: on success both are updated ([ptr] becomes the
    aligned address, [space] shrinks by the bytes skipped) and the new
    [ptr] is returned; on failure nothing changes and null is returned.
    The record holds the returned pointer and the two reference
    arguments as they are after the call. *)

Record align_result : Type := mk_align_result {
  ar_ret : Z;
  ar_ptr : Z;
  ar_space : Z
}.

Definition std_align (alignment size ptr space : Z) : align_result :=
  if space <? size then mk_align_result 0 ptr space
  else
    let aligned := Z.land (wrap (ptr - 1 + alignment)) (wrap (- alignment)) in
    let diff := wrap (aligned - ptr) in
    if space - size <? diff then mk_align_result 0 ptr space
    else mk_align_result aligned aligned (space - diff).

(** ** The arena *)

(** [using FreeBlock = std::pair<void*, std::size_t>]: address and size. *)
Abbreviation FreeBlock := (Z * Z)%type.

Record FixedBufferResource : Type := mkResource {
  buffer : Z;
  buffer_size : Z;
  used : Z;
  free_list : list FreeBlock
}.

Definition set_free_list (a : FixedBufferResource) (fl : list FreeBlock)
  : FixedBufferResource :=
  mkResource (buffer a) (buffer_size a) (used a) fl.

Definition set_used (a : FixedBufferResource) (u : Z) : FixedBufferResource :=
  mkResource (buffer a) (buffer_size a) u (free_list a).

(** The constructor: [buf] is the address [::operator new(size)]
    returned; a null result throws. *)
Definition new_resource (buf size : Z) : result FixedBufferResource :=
  if buf =? 0 then Throw bad_alloc else Ok (mkResource buf size 0 []).

(** [do_deallocate] (main.cpp 20-23). *)
Definition do_deallocate (a : FixedBufferResource) (p bytes alignment : Z)
  : FixedBufferResource :=
  if p =? 0 then a
  else set_free_list a (free_list a ++ [(p, bytes)]).

(** The [for] loop of [do_allocate] (main.cpp 27-49).  [visited] are the
    blocks the iterator has passed, [rest] those from the iterator on.
    [Some (p, fl)]: the loop returned [p] and left the registry [fl];
    [None]: the loop ran to the end and the registry is unchanged. *)
Fixpoint scan_free_list (bytes alignment : Z) (visited rest : list FreeBlock)
  : option (Z * list FreeBlock) :=
  match rest with
  | [] => None
  | (ptr, block_size) :: rest' =>
      let r := std_align alignment bytes ptr block_size in
      if ar_ret r =? 0 then
        scan_free_list bytes alignment (visited ++ [(ptr, block_size)]) rest'
      else
        let wasted := wrap (ar_ret r - ar_ptr r) in
        let remaining := wrap (block_size - wasted - bytes) in
        let erased := visited ++ rest' in
        Some (ar_ret r,
              if 0 <? remaining
              then erased ++ [(wrap (ar_ret r + bytes), remaining)]
              else erased)
  end.

(** The rest of [do_allocate] (main.cpp 50-65): bump the high-water
    mark. *)
Definition bump_allocate (a : FixedBufferResource) (bytes alignment : Z)
  : result (Z * FixedBufferResource) :=
  let space := wrap (buffer_size a - used a) in
  let ptr := wrap (buffer a + used a) in
  let r := std_align alignment bytes ptr space in
  if ar_ret r =? 0 then Throw bad_alloc
  else
    let wasted := wrap (ar_ret r - wrap (buffer a + used a)) in
    if buffer_size a <? wrap (used a + wasted + bytes) then Throw bad_alloc
    else Ok (ar_ret r, set_used a (wrap (used a + wasted + bytes))).

(** [do_allocate] (main.cpp 26-66). *)
Definition do_allocate (a : FixedBufferResource) (bytes alignment : Z)
  : result (Z * FixedBufferResource) :=
  match scan_free_list bytes alignment [] (free_list a) with
  | Some (p, fl) => Ok (p, set_free_list a fl)
  | None => bump_allocate a bytes alignment
  end.

(** The public, non-virtual entry points of [std::pmr::memory_resource]
    forward to the two overrides. *)
Definition allocate := do_allocate.
Definition deallocate := do_deallocate.

(** A client's calls on one arena, and the addresses its successful
    [allocate] calls return, in call order.  A throwing [allocate]
    leaves the arena as it was. *)
Inductive call : Type :=
| Alloc (bytes alignment : Z)
| Dealloc (p bytes alignment : Z).

Definition do_call (a : FixedBufferResource) (c : call)
  : FixedBufferResource * list Z :=
  match c with
  | Alloc bytes alignment =>
      match allocate a bytes alignment with
      | Ok (p, a') => (a', [p])
      | Throw _ => (a, [])
      end
  | Dealloc p bytes alignment => (deallocate a p bytes alignment, [])
  end.

Fixpoint run_calls (a : FixedBufferResource) (cs : list call)
  : FixedBufferResource * list Z :=
  match cs with
  | [] => (a, [])
  | c :: cs' =>
      let '(a1, ps1) := do_call a c in
      let '(a2, ps2) := run_calls a1 cs' in
      (a2, ps1 ++ ps2)
  end.

(** The documented precondition of [deallocate]: the client hands back
    exactly what an earlier [allocate] returned, with the size and
    alignment it asked for, and hands it back once.  [outstanding] are
    the allocations not yet handed back. *)
Definition same_allocation (x y : Z * Z * Z) : bool :=
  let '(p, bytes, alignment) := x in
  let '(p', bytes', alignment') := y in
  (p =? p') && (bytes =? bytes') && (alignment =? alignment').

Fixpoint remove_first (x : Z * Z * Z) (l : list (Z * Z * Z))
  : option (list (Z * Z * Z)) :=
  match l with
  | [] => None
  | y :: l' =>
      if same_allocation x y then Some l'
      else cons y <$> remove_first x l'
  end.

Fixpoint hands_back_only (a : FixedBufferResource)
    (outstanding : list (Z * Z * Z)) (cs : list call) : bool :=
  match cs with
  | [] => true
  | Alloc bytes alignment :: cs' =>
      match allocate a bytes alignment with
      | Ok (p, a') =>
          hands_back_only a' ((p, bytes, alignment) :: outstanding) cs'
      | Throw _ => hands_back_only a outstanding cs'
      end
  | Dealloc p bytes alignment :: cs' =>
      match remove_first (p, bytes, alignment) outstanding with
      | Some outstanding' =>
          hands_back_only (deallocate a p bytes alignment) outstanding' cs'
      | None => false
      end
  end.

(** The sizes a client can pass fit [std::size_t]. *)
Definition call_in_range (c : call) : Prop :=
  match c with
  | Alloc bytes _ => in_range bytes
  | Dealloc _ _ _ => True
  end.

(** ** The stack

    [Stack<T>] declares its allocator as [polymorphic_allocator<T>] and
    uses it for whole nodes.  The calls are kept as they are written:
    [alloc.allocate(1)] asks the resource for [sizeof(T)] bytes aligned
    to [alignof(T)], and [alloc.deallocate(p, 1)] hands back [sizeof(T)]
    bytes.  The pointer conversions the source leaves implicit ([T*] to
    [Node*] in [push], [Node*] to [T*] in [push] and [pop]) are
    conversions of the address.

    What is needed of the element type: whether constructing a node's
    value from a given value throws, and the size and alignment of [T]
    and of [Node]. *)

Class NodeType (T : Type) : Type := {
  ctor_throws : T -> bool;
  sizeof_value : Z;
  alignof_value : Z;
  sizeof_node : Z;
  alignof_node : Z
}.

Record Node (T : Type) : Type := mkNode {
  value : T;
  next : Z
}.
Arguments mkNode {T} value next.
Arguments value {T} n.
Arguments next {T} n.

(** The stack object: the head pointer, and the allocator, which is a
    pointer to the memory resource it allocates from. *)
Record Stack : Type := mkStack {
  top_node : Z;
  alloc : Z
}.

(** What lies outside the stack object: the memory resources, by the
    address of the resource object, and the [Node] objects within their
    lifetime, by address.  Every client whose allocator points to a
    resource shares it. *)
Record Memory (T : Type) : Type := mkMemory {
  resources : gmap Z FixedBufferResource;
  nodes : gmap Z (Node T)
}.
Arguments mkMemory {T} resources nodes.
Arguments resources {T} m.
Arguments nodes {T} m.

(** How a call that may throw ends: normally, or with an exception and
    the state it leaves behind. *)
Inductive outcome (S : Type) : Type :=
| Done (s : S)
| Thrown (e : exn) (s : S).
Arguments Done {S} s.
Arguments Thrown {S} e s.

Section StackOps.
Context {T : Type} `{NodeType T}.

(** Two node-sized spans share a byte. *)
Definition overlaps (p q : Z) : Prop :=
  p < q + sizeof_node /\ q < p + sizeof_node.

Global Instance overlaps_dec p q : Decision (overlaps p q).
Proof. unfold overlaps. apply _. Defined.

(** Construction of a node in place at [p].  Storage that a new object
    takes over stops being the storage of what was there: the lifetime
    of every node whose span overlaps the new one ends. *)
Definition construct_at (h : gmap Z (Node T)) (p : Z) (n : Node T)
  : gmap Z (Node T) :=
  <[p := n]> (filter (fun kv : Z * Node T => ~ overlaps p kv.1) h).

Definition set_resource (m : Memory T) (a : Z) (r : FixedBufferResource)
  : Memory T :=
  mkMemory (<[a := r]> (resources m)) (nodes m).

(** [Stack(const allocator_type&)]. *)
Definition new_stack (a : Z) : Stack := mkStack 0 a.

(** [push] (main.cpp 133-154; both overloads have this shape).  [None]:
    the allocator points to no resource. *)
Definition push (m : Memory T) (s : Stack) (v : T)
  : option (outcome (Memory T * Stack)) :=
  match resources m !! alloc s with
  | None => None
  | Some r =>
      match allocate r sizeof_value alignof_value with
      | Throw e => Some (Thrown e (m, s))
      | Ok (new_node, r1) =>
          if ctor_throws v then
            Some (Thrown ctor_failure
                    (set_resource m (alloc s)
                       (deallocate r1 new_node sizeof_value alignof_value),
                     s))
          else
            Some (Done
                    (mkMemory (<[alloc s := r1]> (resources m))
                       (construct_at (nodes m) new_node
                                     (mkNode v (top_node s))),
                     mkStack new_node (alloc s)))
      end
  end.

(** [pop] (main.cpp 156-165).  [None]: the head is not a live node, or
    the allocator points to no resource. *)
Definition pop (m : Memory T) (s : Stack) : option (Memory T * Stack) :=
  if top_node s =? 0 then Some (m, s)
  else
    match nodes m !! top_node s, resources m !! alloc s with
    | Some old_node, Some r =>
        Some (mkMemory
                (<[alloc s := deallocate r (top_node s)
                                         sizeof_value alignof_value]>
                   (resources m))
                (delete (top_node s) (nodes m)),
              mkStack (next old_node) (alloc s))
    | _, _ => None
    end.

(** [top]: [None] where the assertion fails or the head is not a live
    node. *)
Definition top (m : Memory T) (s : Stack) : option T :=
  if top_node s =? 0 then None
  else value <$> nodes m !! top_node s.

Definition empty (s : Stack) : bool := top_node s =? 0.

(** [size]: the counting loop, bounded by [fuel]. *)
Fixpoint count_nodes (fuel : nat) (h : gmap Z (Node T)) (p : Z) : option nat :=
  if p =? 0 then Some O
  else
    match fuel with
    | O => None
    | S fuel' =>
        match h !! p with
        | None => None
        | Some n => S <$> count_nodes fuel' h (next n)
        end
    end.

Definition size (fuel : nat) (m : Memory T) (s : Stack) : option nat :=
  count_nodes fuel (nodes m) (top_node s).

(** [clear]: pop until empty, bounded by [fuel]. *)
Fixpoint clear (fuel : nat) (m : Memory T) (s : Stack)
  : option (Memory T * Stack) :=
  if empty s then Some (m, s)
  else
    match fuel with
    | O => None
    | S fuel' =>
        match pop m s with
        | None => None
        | Some (m', s') => clear fuel' m' s'
        end
    end.

(** The iterator is the pointer [current]. *)
Definition begin_ (s : Stack) : Z := top_node s.
Definition end_ : Z := 0.
Definition iter_deref (h : gmap Z (Node T)) (current : Z) : option T :=
  value <$> h !! current.
Definition iter_incr (h : gmap Z (Node T)) (current : Z) : option Z :=
  next <$> h !! current.

(** [for (it = first; it != end(); ++it) yield *it], bounded by [fuel]. *)
Fixpoint iterate (fuel : nat) (h : gmap Z (Node T)) (it : Z) : option (list T) :=
  if it =? end_ then Some []
  else
    match fuel with
    | O => None
    | S fuel' =>
        match iter_deref h it, iter_incr h it with
        | Some v, Some it' => cons v <$> iterate fuel' h it'
        | _, _ => None
        end
    end.

Definition to_list (fuel : nat) (m : Memory T) (s : Stack) : option (list T) :=
  iterate fuel (nodes m) (begin_ s).

(** The chain from [p] visits exactly the cells [(address, value)], in
    order, each a live node, and ends in null. *)
Fixpoint linked (h : gmap Z (Node T)) (p : Z) (cells : list (Z * T)) : Prop :=
  match cells with
  | [] => p = 0
  | (q, v) :: cells' =>
      p = q /\ q <> 0 /\
      exists nxt, h !! q = Some (mkNode v nxt) /\ linked h nxt cells'
  end.
End StackOps.



(** ** Vocabulary of the specification *)

(** The least multiple of [alignment] that is at least [p]. *)
Definition align_up (alignment p : Z) : Z :=
  (p + alignment - 1) / alignment * alignment.

(** A block can hold an aligned span of [bytes] bytes: some address [q]
    of the block is a multiple of [alignment] and [q + bytes] does not
    pass the end of the block. *)
Definition can_contain (alignment bytes : Z) (b : FreeBlock) : Prop :=
  exists q, in_range q /\ b.1 <= q /\ q mod alignment = 0 /\
            q + bytes <= b.1 + b.2.

Definition wf_block (b : FreeBlock) : Prop :=
  0 < b.1 < size_mod /\ in_range b.2.

(** An arena as the constructor and the two operations keep it: a real,
    non-null buffer that ends inside the address space, a high-water
    mark inside the buffer, and registry entries that are non-null
    addresses with sizes that fit [std::size_t]. *)
Record wf_resource (a : FixedBufferResource) : Prop := mk_wf_resource {
  wf_buffer : 0 < buffer a;
  wf_buffer_end : buffer a + buffer_size a <= size_mod;
  wf_used : 0 <= used a <= buffer_size a;
  wf_free_list : Forall wf_block (free_list a)
}.

(** ** Clients of the arena, and moves *)

(** The number of [deallocate] calls in a run. *)
Fixpoint count_deallocs (cs : list call) : nat :=
  match cs with
  | [] => O
  | Alloc _ _ :: cs' => count_deallocs cs'
  | Dealloc _ _ _ :: cs' => S (count_deallocs cs')
  end.

(** A client that only allocates: each request is [(bytes, alignment)];
    the result lists, in call order, what the successful calls
    returned, as [(address, bytes, alignment)].  A request that throws
    is skipped. *)
Fixpoint alloc_all (a : FixedBufferResource) (reqs : list (Z * Z))
  : FixedBufferResource * list (Z * Z * Z) :=
  match reqs with
  | [] => (a, [])
  | (bytes, alignment) :: reqs' =>
      match allocate a bytes alignment with
      | Ok (p, a') =>
          let '(a2, got) := alloc_all a' reqs' in
          (a2, (p, bytes, alignment) :: got)
      | Throw _ => alloc_all a reqs'
      end
  end.

(** The spans [got] lie one after the other between [lo] and [hi], each
    at a multiple of its alignment. *)
Fixpoint ascending (lo hi : Z) (got : list (Z * Z * Z)) : Prop :=
  match got with
  | [] => lo <= hi
  | (p, bytes, alignment) :: got' =>
      lo <= p /\ p mod alignment = 0 /\ ascending (p + bytes) hi got'
  end.

(** What a move leaves in the source object (main.cpp 86-88 and
    99-101): null buffer, no capacity, nothing used.  [std::list] only
    promises a valid state for a moved-from list, so its entries are
    the parameter [leftover]. *)
Definition moved_from (leftover : list FreeBlock) : FixedBufferResource :=
  mkResource 0 0 0 leftover.

(** The move constructor (main.cpp 84-89): the new object and the
    source after the move. *)
Definition move_construct (other : FixedBufferResource)
    (leftover : list FreeBlock) : FixedBufferResource * FixedBufferResource :=
  (mkResource (buffer other) (buffer_size other) (used other) (free_list other),
   moved_from leftover).

(** Move assignment (main.cpp 91-104): the target and the source after
    the call.  [same_object] is the test [this == &other]; when it holds
    the two are one object and nothing happens.  Releasing the target's
    old buffer has no effect on the state modelled here. *)
Definition move_assign (self other : FixedBufferResource) (same_object : bool)
    (leftover : list FreeBlock) : FixedBufferResource * FixedBufferResource :=
  if same_object then (self, self)
  else
    (mkResource (buffer other) (buffer_size other) (used other) (free_list other),
     moved_from leftover).

Example ex_reuse :
  let a0 := mkResource 4096 256 0 [] in
  match allocate a0 64 8 with
  | Ok (p1, a1) =>
      match allocate (deallocate a1 p1 64 8) 64 8 with
      | Ok (p2, a2) => (p1, p2, used a2, free_list a2) = (4096, 4096, 64, [])
      | Throw _ => False
      end
  | Throw _ => False
  end.
Proof. vm_compute. reflexivity. Qed.

(** * Arithmetic of alignment *)

Lemma size_mod_eq : size_mod = 18446744073709551616.
Proof. reflexivity. Qed.

Lemma size_mod_pos : 0 < size_mod.
Proof. rewrite size_mod_eq. lia. Qed.

(** Closes a goal about concrete sizes and addresses. *)
Ltac range_lia :=
  unfold wf_block, in_range in *; cbn [fst snd] in *;
  rewrite ?size_mod_eq in *; lia.

Lemma wrap_range z : in_range (wrap z).
Proof. unfold in_range, wrap. apply Z.mod_pos_bound, size_mod_pos. Qed.

Lemma wrap_small z : in_range z -> wrap z = z.
Proof. unfold in_range, wrap. intros. now apply Z.mod_small. Qed.

Lemma pow2_pos k : 0 <= k -> 0 < 2 ^ k.
Proof. intros. apply Z.pow_pos_nonneg; lia. Qed.

Lemma pow2_divides_size_mod k :
  0 <= k < size_bits -> size_mod = 2 ^ k * 2 ^ (size_bits - k).
Proof.
  intros Hk. unfold size_mod.
  rewrite <- Z.pow_add_r by lia. f_equal. lia.
Qed.

Lemma pow2_lt_size_mod k : 0 <= k < size_bits -> 2 ^ k < size_mod.
Proof.
  intros Hk. unfold size_mod. apply Z.pow_lt_mono_r; lia.
Qed.

(** Reducing modulo 2^64 first does not change a residue modulo a
    smaller power of two. *)
Lemma wrap_mod_pow2 z k :
  0 <= k < size_bits -> wrap z mod 2 ^ k = z mod 2 ^ k.
Proof.
  intros Hk. unfold wrap.
  rewrite (pow2_divides_size_mod k Hk).
  pose proof (pow2_pos k ltac:(lia)).
  pose proof (pow2_pos (size_bits - k) ltac:(lia)).
  rewrite Z.rem_mul_r by lia.
  rewrite (Z.mul_comm (2 ^ k) (_ mod _)), Z.mod_add by lia.
  apply Z.mod_mod. lia.
Qed.

(** Masking with [-2^k] clears the low [k] bits. *)
Lemma land_neg_pow2 x k :
  0 <= k < size_bits -> in_range x ->
  Z.land x (wrap (- 2 ^ k)) = x - x mod 2 ^ k.
Proof.
  intros Hk Hx.
  assert (Hm : wrap (- 2 ^ k) = Z.land (- 2 ^ k) (Z.ones size_bits)).
  { unfold wrap, size_mod. rewrite Z.land_ones; [reflexivity | unfold size_bits; lia]. }
  rewrite Hm, (Z.land_comm (- 2 ^ k)), Z.land_assoc.
  rewrite Z.land_ones by (unfold size_bits; lia).
  fold size_mod. rewrite Z.mod_small by exact Hx.
  assert (Hn : - 2 ^ k = Z.lnot (Z.ones k)).
  { rewrite Z.ones_equiv. unfold Z.lnot. lia. }
  rewrite Hn, <- Z.ldiff_land, Z.ldiff_ones_r by lia.
  rewrite Z.shiftr_div_pow2, Z.shiftl_mul_pow2 by lia.
  pose proof (pow2_pos k ltac:(lia)).
  pose proof (Z.div_mod x (2 ^ k) ltac:(lia)). lia.
Qed.

Lemma align_up_eq alignment p :
  0 < alignment ->
  align_up alignment p = p + alignment - 1 - (p + alignment - 1) mod alignment.
Proof.
  intros Ha. unfold align_up.
  pose proof (Z.div_mod (p + alignment - 1) alignment ltac:(lia)). lia.
Qed.

Lemma align_up_bounds alignment p :
  0 < alignment -> p <= align_up alignment p < p + alignment.
Proof.
  intros Ha. rewrite align_up_eq by exact Ha.
  pose proof (Z.mod_pos_bound (p + alignment - 1) alignment Ha). lia.
Qed.

Lemma align_up_multiple alignment p :
  0 < alignment -> align_up alignment p mod alignment = 0.
Proof.
  intros Ha. unfold align_up. apply Z.mod_mul. lia.
Qed.

Lemma align_up_least alignment p q :
  0 < alignment -> p <= q -> q mod alignment = 0 ->
  align_up alignment p <= q.
Proof.
  intros Ha Hpq Hq.
  apply Z.mod_divide in Hq; [| lia]. destruct Hq as [c ->].
  unfold align_up.
  apply Z.mul_le_mono_nonneg_r; [lia |].
  assert ((p + alignment - 1) / alignment < c + 1); [| lia].
  apply Z.div_lt_upper_bound; lia.
Qed.

(** What the masking expression of [std::align] computes. *)
Lemma aligned_value alignment k p :
  0 <= k < size_bits -> alignment = 2 ^ k -> in_range p ->
  Z.land (wrap (p - 1 + alignment)) (wrap (- alignment)) =
  wrap (align_up alignment p).
Proof.
  intros Hk -> Hp.
  pose proof (pow2_pos k ltac:(lia)) as Ha.
  rewrite land_neg_pow2 by (exact Hk || apply wrap_range).
  rewrite wrap_mod_pow2 by exact Hk.
  rewrite align_up_eq by exact Ha.
  replace (p + 2 ^ k - 1) with (p - 1 + 2 ^ k) by lia.
  set (y := p - 1 + 2 ^ k).
  pose proof (wrap_range y) as Hr.
  pose proof (wrap_mod_pow2 y k Hk) as Hmod.
  pose proof (Z.mod_pos_bound (wrap y) (2 ^ k) Ha) as Hb.
  pose proof (Z.mod_le (wrap y) (2 ^ k) (proj1 Hr) Ha) as Hle.
  pose proof (Z.div_mod y size_mod ltac:(pose proof size_mod_pos; lia)) as Hy.
  unfold in_range in Hr. unfold wrap in *.
  apply Z.mod_unique_pos with (q := y / size_mod); lia.
Qed.

Lemma size_mod_multiple k : 0 <= k < size_bits -> size_mod mod 2 ^ k = 0.
Proof.
  intros Hk. rewrite (pow2_divides_size_mod k Hk), Z.mul_comm.
  apply Z.mod_mul. pose proof (pow2_pos k ltac:(lia)). lia.
Qed.

(** The aligned address never passes the top of the address space. *)
Lemma align_up_le_size_mod k p :
  0 <= k < size_bits -> in_range p -> align_up (2 ^ k) p <= size_mod.
Proof.
  intros Hk Hp. apply align_up_least.
  - apply pow2_pos; lia.
  - unfold in_range in Hp; lia.
  - now apply size_mod_multiple.
Qed.

(** [std::align] either finds the least aligned address of the span
    [p, p + space) that leaves [size] bytes, or returns null. *)
Lemma std_align_cases alignment k size p space :
  0 <= k < size_bits -> alignment = 2 ^ k ->
  in_range p -> in_range space -> 0 <= size ->
  let q := align_up alignment p in
  (q < size_mod /\ q + size <= p + space /\
   std_align alignment size p space = mk_align_result q q (space - (q - p)))
  \/
  (~ (q < size_mod /\ q + size <= p + space) /\
   ar_ret (std_align alignment size p space) = 0).
Proof.
  intros Hk Ha Hp Hs Hsz q.
  pose proof (pow2_pos k ltac:(lia)) as Hpos.
  pose proof (pow2_lt_size_mod k Hk) as Hlt.
  pose proof (align_up_bounds alignment p ltac:(lia)) as Hb. fold q in Hb.
  pose proof (align_up_le_size_mod k p Hk Hp) as Hq. rewrite <- Ha in Hq. fold q in Hq.
  unfold std_align.
  rewrite (aligned_value alignment k p Hk Ha Hp). fold q.
  unfold in_range in *.
  destruct (Z.ltb_spec space size) as [Hss | Hss].
  { right. split; [lia | reflexivity]. }
  destruct (Z_lt_dec q size_mod) as [Hin | Hout].
  - rewrite (wrap_small q) by (unfold in_range; lia).
    rewrite (wrap_small (q - p)) by (unfold in_range; lia).
    destruct (Z.ltb_spec (space - size) (q - p)).
    + right. split; [lia | reflexivity].
    + left. repeat split; lia.
  - assert (q = size_mod) as Hqe by lia.
    assert (wrap q = 0) as Hw.
    { rewrite Hqe. unfold wrap. apply Z.mod_same. lia. }
    rewrite Hw. right. split; [lia |].
    now destruct (_ <? _).
Qed.

(** * The registry scan *)

(** For a registered block, holding an aligned span is decided at the
    least aligned address of the block. *)
Lemma can_contain_align_up alignment k bytes b :
  0 <= k < size_bits -> alignment = 2 ^ k -> 0 <= b.1 ->
  can_contain alignment bytes b <->
  align_up alignment b.1 < size_mod /\
  align_up alignment b.1 + bytes <= b.1 + b.2.
Proof.
  intros Hk Ha Hb1.
  pose proof (pow2_pos k ltac:(lia)) as Hpos. rewrite <- Ha in Hpos.
  pose proof (align_up_bounds alignment b.1 Hpos) as Hb.
  split.
  - intros (q & Hq & Hle & Hmod & Hend).
    pose proof (align_up_least alignment b.1 q Hpos Hle Hmod).
    unfold in_range in Hq. lia.
  - intros [Hlt Hend]. exists (align_up alignment b.1).
    unfold in_range. repeat split; try lia.
    now apply align_up_multiple.
Qed.

Lemma scan_free_list_none bytes alignment k visited rest :
  0 <= k < size_bits -> alignment = 2 ^ k -> 0 <= bytes ->
  Forall wf_block rest ->
  Forall (fun b => ~ can_contain alignment bytes b) rest ->
  scan_free_list bytes alignment visited rest = None.
Proof.
  intros Hk Ha Hbytes Hwf Hno. revert visited.
  induction rest as [| [ptr block_size] rest IH]; intros visited; [reflexivity |].
  inversion Hwf as [| ? ? [Hp Hs] Hwf']; subst.
  inversion Hno as [| ? ? Hn Hno']; subst.
  cbn [scan_free_list]. cbv zeta.
  destruct (std_align_cases (2 ^ k) k bytes ptr block_size)
    as [(Hlt & Hend & _) | [_ Hret]];
    try solve [reflexivity | assumption | unfold in_range; cbn in *; lia].
  - exfalso. apply Hn.
    apply (can_contain_align_up (2 ^ k) k); cbn in *; try (reflexivity || lia).
  - rewrite Hret. cbn. now apply IH.
Qed.

(** The scan returns the least aligned address of the first block that
    can hold the span, and erases that block.  The entry it appends is
    what lines 37-45 compute: [wasted] is taken after [std::align] has
    moved [ptr], so it is zero. *)
Lemma scan_free_list_first_fit bytes alignment k visited pre blk post :
  0 <= k < size_bits -> alignment = 2 ^ k -> 0 <= bytes ->
  Forall wf_block pre -> wf_block blk ->
  Forall (fun b => ~ can_contain alignment bytes b) pre ->
  can_contain alignment bytes blk ->
  scan_free_list bytes alignment visited (pre ++ blk :: post) =
  Some (align_up alignment blk.1,
        if 0 <? blk.2 - bytes
        then (visited ++ pre ++ post) ++
             [(wrap (align_up alignment blk.1 + bytes), blk.2 - bytes)]
        else visited ++ pre ++ post).
Proof.
  intros Hk Ha Hbytes Hwf Hblk Hno Hfit. revert visited.
  induction pre as [| [ptr block_size] pre IH]; intros visited.
  - destruct blk as [ptr block_size]. destruct Hblk as [Hp Hs].
    cbn [app scan_free_list]. cbv zeta. cbn [fst snd] in *.
    apply (can_contain_align_up alignment k) in Hfit; [| assumption .. | cbn; lia].
    cbn [fst snd] in Hfit. destruct Hfit as [Hlt Hend].
    pose proof (align_up_bounds alignment ptr
                  ltac:(rewrite Ha; apply pow2_pos; lia)) as Hb.
    destruct (std_align_cases alignment k bytes ptr block_size)
      as [(_ & _ & Heq) | [Hn _]];
      try solve [assumption | unfold in_range in *; lia].
    rewrite Heq. cbn [ar_ret ar_ptr].
    destruct (Z.eqb_spec (align_up alignment ptr) 0) as [H0 | _]; [lia |].
    rewrite Z.sub_diag.
    replace (wrap 0) with 0 by reflexivity.
    rewrite Z.sub_0_r.
    rewrite (wrap_small (block_size - bytes)) by (unfold in_range in *; lia).
    reflexivity.
  - inversion Hwf as [| ? ? [Hp Hs] Hwf']; subst.
    inversion Hno as [| ? ? Hn Hno']; subst.
    cbn [app scan_free_list]. cbv zeta.
    destruct (std_align_cases (2 ^ k) k bytes ptr block_size)
      as [(Hlt & Hend & _) | [_ Hret]];
      try solve [reflexivity | assumption | unfold in_range; cbn in *; lia].
    + exfalso. apply Hn.
      apply (can_contain_align_up (2 ^ k) k); cbn in *; try (reflexivity || lia).
    + rewrite Hret. cbn [Z.eqb]. rewrite IH by assumption.
      replace ((visited ++ [(ptr, block_size)]) ++ pre ++ post)
        with (visited ++ (ptr, block_size) :: pre ++ post)
        by (now rewrite <- app_assoc).
      reflexivity.
Qed.

(** * The bump path *)

Lemma align_up_0 alignment : 0 < alignment -> align_up alignment 0 = 0.
Proof.
  intros Ha. unfold align_up.
  rewrite Z.div_small by lia. reflexivity.
Qed.

(** The bump path commits the least aligned address at or after the
    high-water mark when the span ends inside the buffer, and throws
    otherwise. *)
Lemma bump_allocate_spec a bytes alignment k :
  0 <= k < size_bits -> alignment = 2 ^ k -> in_range bytes ->
  0 < buffer a -> buffer a + buffer_size a <= size_mod ->
  0 <= used a <= buffer_size a ->
  let q := align_up alignment (buffer a + used a) in
  bump_allocate a bytes alignment =
  if (q <? size_mod) && (q + bytes <=? buffer a + buffer_size a)
  then Ok (q, set_used a (q + bytes - buffer a))
  else Throw bad_alloc.
Proof.
  intros Hk Ha Hbytes Hbuf Hend Hused q.
  pose proof (pow2_pos k ltac:(lia)) as Hpos. rewrite <- Ha in Hpos.
  pose proof (align_up_bounds alignment (buffer a + used a) Hpos) as Hb.
  fold q in Hb.
  unfold bump_allocate.
  cbv zeta. unfold in_range in Hbytes.
  rewrite (wrap_small (buffer_size a - used a)) by (unfold in_range; lia).
  destruct (Z_lt_dec (buffer a + used a) size_mod) as [Hin | Hout].
  - rewrite !(wrap_small (buffer a + used a)) by (unfold in_range; lia).
    destruct (std_align_cases alignment k bytes (buffer a + used a)
                (buffer_size a - used a))
      as [(Hlt & Hfit & Heq) | [Hn Hret]];
      try solve [assumption | unfold in_range; lia].
    + fold q in Hlt, Hfit, Heq. rewrite Heq. cbn [ar_ret].
      destruct (Z.eqb_spec q 0); [lia |].
      rewrite (wrap_small (q - (buffer a + used a))) by (unfold in_range; lia).
      replace (used a + (q - (buffer a + used a)) + bytes)
        with (q + bytes - buffer a) by lia.
      rewrite (wrap_small (q + bytes - buffer a)) by (unfold in_range; lia).
      destruct (Z.ltb_spec (buffer_size a) (q + bytes - buffer a)); [lia |].
      destruct (Z.ltb_spec q size_mod); [| lia].
      destruct (Z.leb_spec (q + bytes) (buffer a + buffer_size a)); [| lia].
      reflexivity.
    + fold q in Hn. rewrite Hret. cbn [Z.eqb].
      destruct (Z.ltb_spec q size_mod); [| reflexivity].
      destruct (Z.leb_spec (q + bytes) (buffer a + buffer_size a)); [| reflexivity].
      lia.
  - assert (buffer a + used a = size_mod) as Htop by lia.
    destruct (Z.ltb_spec q size_mod); [lia |]. cbn [andb].
    replace (wrap (buffer a + used a)) with 0
      by (rewrite Htop; unfold wrap; now rewrite Z.mod_same by lia).
    destruct (std_align_cases alignment k bytes 0 (buffer_size a - used a))
      as [(_ & _ & Heq) | [_ Hret]];
      try solve [assumption | unfold in_range; lia].
    + rewrite Heq. cbn [ar_ret]. rewrite (align_up_0 alignment Hpos). reflexivity.
    + rewrite Hret. reflexivity.
Qed.

(** With nothing to reuse, [do_allocate] is the bump path. *)
Lemma do_allocate_bump a bytes alignment k :
  0 <= k < size_bits -> alignment = 2 ^ k -> in_range bytes ->
  wf_resource a ->
  Forall (fun b => ~ can_contain alignment bytes b) (free_list a) ->
  let q := align_up alignment (buffer a + used a) in
  do_allocate a bytes alignment =
  if (q <? size_mod) && (q + bytes <=? buffer a + buffer_size a)
  then Ok (q, set_used a (q + bytes - buffer a))
  else Throw bad_alloc.
Proof.
  intros Hk Ha Hbytes [Hbuf Hend Hused Hfl] Hno q.
  unfold do_allocate.
  rewrite (scan_free_list_none bytes alignment k) by
    (assumption || unfold in_range in Hbytes; lia).
  now apply (bump_allocate_spec a bytes alignment k).
Qed.

(** * Properties of [allocate] *)

(** C1: for [size > 0] and [alignment] a power of two, [allocate] scans
    the registry in insertion order and returns the least aligned
    address of the first block that can hold an aligned span of [size]
    bytes (an address inside that block, [used] untouched); when no
    registered block can, it takes the least aligned address [q] at or
    after [buffer + used] and, if [q + size <= buffer + capacity],
    returns [q] and sets [used] to [q + size - buffer]. *)
Theorem C1_allocate_first_fit_then_bump a bytes alignment :
  wf_resource a -> 0 < bytes -> in_range bytes -> is_pow2 alignment ->
  (forall pre blk post,
      free_list a = pre ++ blk :: post ->
      Forall (fun b => ~ can_contain alignment bytes b) pre ->
      can_contain alignment bytes blk ->
      exists q a',
        allocate a bytes alignment = Ok (q, a') /\
        q = align_up alignment blk.1 /\
        q mod alignment = 0 /\
        blk.1 <= q /\ q + bytes <= blk.1 + blk.2 /\
        used a' = used a)
  /\
  (Forall (fun b => ~ can_contain alignment bytes b) (free_list a) ->
   let q := align_up alignment (buffer a + used a) in
   buffer a + used a <= q /\ q mod alignment = 0 /\
   (forall q', buffer a + used a <= q' -> q' mod alignment = 0 -> q <= q') /\
   (q + bytes <= buffer a + buffer_size a ->
    allocate a bytes alignment = Ok (q, set_used a (q + bytes - buffer a)))).
Proof.
  intros Hwf Hpos Hbytes (k & Hk & Ha).
  pose proof (pow2_pos k ltac:(lia)) as Hal. rewrite <- Ha in Hal.
  split.
  - intros pre blk post Hfl Hno Hfit.
    pose proof (wf_free_list a Hwf) as Hblocks. rewrite Hfl in Hblocks.
    apply Forall_app in Hblocks as [Hpre Hrest].
    apply Forall_cons in Hrest as [Hblk _].
    pose proof Hfit as Hfit'.
    apply (can_contain_align_up alignment k) in Hfit';
      [| assumption | assumption | destruct Hblk; lia].
    destruct Hfit' as [Hlt Hend].
    eexists _, _. split.
    + unfold allocate, do_allocate. rewrite Hfl.
      rewrite (scan_free_list_first_fit bytes alignment k [] pre blk post);
        try solve [assumption | lia].
      reflexivity.
    + repeat split; try assumption.
      * now apply align_up_multiple.
      * apply align_up_bounds; assumption.
  - intros Hno q.
    pose proof (align_up_bounds alignment (buffer a + used a) Hal) as Hb.
    fold q in Hb.
    split; [lia |]. split; [now apply align_up_multiple |].
    split; [intros q' Hle Hm; now apply align_up_least |].
    intros Hfit. unfold allocate.
    rewrite (do_allocate_bump a bytes alignment k) by assumption.
    fold q.
    pose proof (wf_buffer_end a Hwf).
    destruct (Z.ltb_spec q size_mod); [| lia].
    destruct (Z.leb_spec (q + bytes) (buffer a + buffer_size a)); [| lia].
    reflexivity.
Qed.

(** Whatever [std::align] returns is a multiple of the alignment; this
    needs nothing of the pointer or the space it is given. *)
Lemma std_align_ret_aligned alignment size p space :
  is_pow2 alignment ->
  ar_ret (std_align alignment size p space) mod alignment = 0.
Proof.
  intros (k & Hk & ->).
  pose proof (pow2_pos k ltac:(lia)) as Hpos.
  unfold std_align.
  destruct (space <? size); [now apply Z.mod_0_l; lia |].
  cbv zeta. destruct (_ <? _); [now apply Z.mod_0_l; lia |].
  cbn [ar_ret].
  rewrite land_neg_pow2 by (exact Hk || apply wrap_range).
  rewrite Zminus_mod, Z.mod_mod, Z.sub_diag by lia.
  apply Z.mod_0_l. lia.
Qed.

Lemma scan_free_list_ret bytes alignment visited rest p fl :
  scan_free_list bytes alignment visited rest = Some (p, fl) ->
  p <> 0 /\
  exists ptr block_size, (ptr, block_size) ∈ rest /\
    p = ar_ret (std_align alignment bytes ptr block_size).
Proof.
  revert visited.
  induction rest as [| [ptr block_size] rest IH]; intros visited; [discriminate |].
  cbn [scan_free_list]. cbv zeta.
  destruct (Z.eqb_spec (ar_ret (std_align alignment bytes ptr block_size)) 0)
    as [Hz | Hnz].
  - intros Hs. apply IH in Hs as (Hp & ptr' & bs' & Hin & Heq).
    split; [exact Hp |]. exists ptr', bs'. split; [now right | exact Heq].
  - intros [= <- _]. split; [exact Hnz |].
    exists ptr, block_size. split; [now left | reflexivity].
Qed.

Lemma bump_allocate_ret a bytes alignment p a' :
  bump_allocate a bytes alignment = Ok (p, a') ->
  p <> 0 /\
  p = ar_ret (std_align alignment bytes (wrap (buffer a + used a))
                        (wrap (buffer_size a - used a))) /\
  buffer a' = buffer a /\ buffer_size a' = buffer_size a /\
  free_list a' = free_list a /\ used a' <= buffer_size a'.
Proof.
  unfold bump_allocate. cbv zeta.
  destruct (Z.eqb_spec (ar_ret (std_align alignment bytes
             (wrap (buffer a + used a)) (wrap (buffer_size a - used a)))) 0)
    as [| Hnz]; [discriminate |].
  destruct (Z.ltb_spec (buffer_size a)
             (wrap (used a + wrap (ar_ret (std_align alignment bytes
                (wrap (buffer a + used a)) (wrap (buffer_size a - used a))) -
                wrap (buffer a + used a)) + bytes))); [discriminate |].
  intros [= <- <-]. cbn. repeat split; try assumption.
Qed.

(** A successful [allocate] never returns null and never touches the
    buffer or its capacity. *)
Lemma allocate_ok_frame a bytes alignment p a' :
  allocate a bytes alignment = Ok (p, a') ->
  p <> 0 /\ buffer a' = buffer a /\ buffer_size a' = buffer_size a.
Proof.
  unfold allocate, do_allocate.
  destruct (scan_free_list _ _ _ _) as [[p0 fl] |] eqn:Hscan.
  - intros [= <- <-]. apply scan_free_list_ret in Hscan as [Hp _].
    repeat split; assumption.
  - intros Hb. apply bump_allocate_ret in Hb. tauto.
Qed.

(** C8: a successful [allocate] with a power-of-two alignment returns a
    multiple of that alignment, from the registry or from the bump
    path. *)
Theorem C8_allocate_returns_aligned a bytes alignment p a' :
  is_pow2 alignment ->
  allocate a bytes alignment = Ok (p, a') ->
  p mod alignment = 0.
Proof.
  intros Hpow. unfold allocate, do_allocate.
  destruct (scan_free_list _ _ _ _) as [[p0 fl] |] eqn:Hscan.
  - intros [= <- <-].
    apply scan_free_list_ret in Hscan as (_ & ptr & bs & _ & ->).
    now apply std_align_ret_aligned.
  - intros Hb. apply bump_allocate_ret in Hb as (_ & -> & _).
    now apply std_align_ret_aligned.
Qed.

Lemma is_pow2_32 : is_pow2 32.
Proof. exists 5. unfold size_bits. split; [lia | reflexivity]. Qed.

Lemma C8_witness :
  allocate (mkResource 4096 1024 3 [(5001, 100)]) 40 32 =
    Ok (5024, mkResource 4096 1024 3 [(5064, 60)]) /\
  5024 mod 32 = 0.
Proof.
  split; [vm_compute; reflexivity |].
  apply (C8_allocate_returns_aligned
           (mkResource 4096 1024 3 [(5001, 100)]) 40 32 5024
           (mkResource 4096 1024 3 [(5064, 60)])).
  - exact is_pow2_32.
  - vm_compute. reflexivity.
Defined.

Lemma align_up_1 p : align_up 1 p = p.
Proof. unfold align_up. rewrite Z.div_1_r. lia. Qed.

Lemma is_pow2_1 : is_pow2 1.
Proof. exists 0. unfold size_bits. split; [lia | reflexivity]. Qed.

Lemma allocate_throws_bad_alloc a bytes alignment e :
  allocate a bytes alignment = Throw e -> e = bad_alloc.
Proof.
  unfold allocate, do_allocate, bump_allocate.
  destruct (scan_free_list _ _ _ _) as [[p0 fl] |]; [discriminate |].
  cbv zeta. destruct (_ =? _); [congruence |].
  destruct (_ <? _); [congruence | discriminate].
Qed.

(** C3: on a fresh arena of capacity [C] (empty registry, [used = 0])
    [allocate(C, 1)] returns the buffer and makes [used = C]; after it
    both [allocate(C, 1)] and [allocate(1, 1)] throw [bad_alloc].  In
    general, a request that no registered block can hold and that does
    not fit after the high-water mark throws [bad_alloc]; [bad_alloc]
    is the only exception [allocate] throws; a throwing call leaves the
    arena as it was (a [Throw] carries no new state), and a successful
    one never changes the capacity. *)
Theorem C3_exhaustion_is_out_of_memory buf C :
  0 < buf -> 0 < C -> buf + C <= size_mod ->
  let a0 := mkResource buf C 0 [] in
  new_resource buf C = Ok a0 /\
  allocate a0 C 1 = Ok (buf, set_used a0 C) /\
  used (set_used a0 C) = buffer_size a0 /\
  allocate (set_used a0 C) C 1 = Throw bad_alloc /\
  allocate (set_used a0 C) 1 1 = Throw bad_alloc /\
  (forall a bytes alignment,
      wf_resource a -> 0 < bytes -> in_range bytes -> is_pow2 alignment ->
      Forall (fun b => ~ can_contain alignment bytes b) (free_list a) ->
      buffer a + buffer_size a <
        align_up alignment (buffer a + used a) + bytes ->
      allocate a bytes alignment = Throw bad_alloc) /\
  (forall a bytes alignment e,
      allocate a bytes alignment = Throw e -> e = bad_alloc) /\
  (forall a bytes alignment p a',
      allocate a bytes alignment = Ok (p, a') ->
      buffer_size a' = buffer_size a).
Proof.
  intros Hbuf HC Hend a0.
  assert (Hk0 : 0 <= 0 < size_bits) by (unfold size_bits; lia).
  assert (HCr : in_range C) by (unfold in_range; lia).
  assert (H1r : in_range 1) by range_lia.
  assert (Hwf0 : wf_resource a0) by (constructor; cbn; (lia || constructor)).
  assert (Hwf1 : wf_resource (set_used a0 C))
    by (constructor; cbn; (lia || constructor)).
  split; [| split; [| split; [| split; [| split; [| split; [| split]]]]]].
  - unfold new_resource. destruct (Z.eqb_spec buf 0); [lia | reflexivity].
  - unfold allocate.
    rewrite (do_allocate_bump a0 C 1 0 Hk0 eq_refl HCr Hwf0) by constructor.
    rewrite align_up_1. cbn [buffer used buffer_size a0].
    destruct (Z.ltb_spec (buf + 0) size_mod); [| lia].
    destruct (Z.leb_spec (buf + 0 + C) (buf + C)); [| lia].
    cbn [andb]. rewrite Z.add_0_r.
    now replace (buf + C - buf) with C by lia.
  - reflexivity.
  - unfold allocate.
    rewrite (do_allocate_bump _ C 1 0 Hk0 eq_refl HCr Hwf1) by constructor.
    rewrite align_up_1. cbn [buffer used buffer_size a0 set_used].
    destruct (Z.leb_spec (buf + C + C) (buf + C)); [lia |].
    now rewrite andb_false_r.
  - unfold allocate.
    rewrite (do_allocate_bump _ 1 1 0 Hk0 eq_refl H1r Hwf1) by constructor.
    rewrite align_up_1. cbn [buffer used buffer_size a0 set_used].
    destruct (Z.leb_spec (buf + C + 1) (buf + C)); [lia |].
    now rewrite andb_false_r.
  - intros a bytes alignment Hwf Hpos Hbytes (k & Hk & Ha) Hno Hover.
    unfold allocate.
    rewrite (do_allocate_bump a bytes alignment k) by assumption.
    destruct (Z.leb_spec (align_up alignment (buffer a + used a) + bytes)
                (buffer a + buffer_size a)); [lia |].
    now rewrite andb_false_r.
  - exact allocate_throws_bad_alloc.
  - intros a bytes alignment p a' Hok.
    now apply allocate_ok_frame in Hok.
Qed.

Lemma C3_witness :
  let a0 := mkResource 4096 1024 0 [] in
  allocate a0 1024 1 = Ok (4096, set_used a0 1024) /\
  allocate (set_used a0 1024) 1024 1 = Throw bad_alloc /\
  allocate (set_used a0 1024) 1 1 = Throw bad_alloc.
Proof.
  assert (H1 : 0 < 4096) by lia.
  assert (H2 : 0 < 1024) by lia.
  assert (H3 : 4096 + 1024 <= size_mod) by range_lia.
  pose proof (C3_exhaustion_is_out_of_memory 4096 1024 H1 H2 H3) as H.
  cbv zeta in H. destruct H as (_ & Ha & _ & Hb & Hc & _).
  cbv zeta. repeat split; assumption.
Defined.

(** * Properties of [deallocate] *)

(** C10: [deallocate] with a null address returns at once; the arena is
    unchanged whatever [bytes] and [alignment] are. *)
Theorem C10_deallocate_null_is_noop a bytes alignment :
  deallocate a 0 bytes alignment = a.
Proof. reflexivity. Qed.

(** C7, as the code has it: a call with a non-null address appends
    [(address, size)] at the end of the registry, whatever the
    arguments are; the earlier entries stay as they were, in order, and
    [used], the buffer and the capacity do not change. *)
Theorem C7_deallocate_appends_nonnull a p bytes alignment :
  p <> 0 ->
  free_list (deallocate a p bytes alignment) = free_list a ++ [(p, bytes)] /\
  used (deallocate a p bytes alignment) = used a /\
  buffer (deallocate a p bytes alignment) = buffer a /\
  buffer_size (deallocate a p bytes alignment) = buffer_size a.
Proof.
  intros Hp. unfold deallocate, do_deallocate.
  destruct (Z.eqb_spec p 0); [contradiction |].
  repeat split.
Qed.

Lemma C7_witness :
  free_list (deallocate (mkResource 4096 64 16 [(4096, 8)]) 4104 8 8) =
  [(4096, 8); (4104, 8)].
Proof.
  apply (C7_deallocate_appends_nonnull
           (mkResource 4096 64 16 [(4096, 8)]) 4104 8 8).
  lia.
Defined.

(** The append is not unconditional: a null address adds no entry. *)
Lemma C7_counterexample :
  free_list (deallocate (mkResource 4096 64 16 []) 0 8 8) <>
  free_list (mkResource 4096 64 16 []) ++ [(0, 8)].
Proof. cbn. discriminate. Qed.

(** * Reuse of a block whose start is not aligned *)

(** C2, evaluated on two runs in which the client only hands back what
    [allocate] returned.  The arena has 64 bytes at address 4096.  In
    the first run the freed block is [(4097, 63)]; [allocate(8, 8)] is
    served from it at 4104, seven bytes in.  The entry put back is
    [(4112, 55)]: its size is [63 - 8], the seven bytes of alignment
    waste are not subtracted (the specification gives
    [63 - 7 - 8 = 48]), and it ends at 4167, past the end of the freed
    block and of the buffer (4160).  In the second run the freed block
    is [(4097, 15)]: nothing remains after the span [4104, 4112), and an
    entry [(4112, 7)] is put back all the same. *)
Theorem C2_remainder_keeps_alignment_waste :
  let a0 := mkResource 4096 64 0 [] in
  let run1 := [Alloc 1 1; Alloc 63 1; Dealloc 4097 63 1; Alloc 8 8] in
  let run2 := [Alloc 1 1; Alloc 15 1; Dealloc 4097 15 1; Alloc 8 8] in
  hands_back_only a0 [] run1 = true /\
  run_calls a0 run1 =
    (mkResource 4096 64 64 [(4112, 55)], [4096; 4097; 4104]) /\
  63 - (4104 - 4097) - 8 = 48 /\
  4096 + 64 < 4112 + 55 /\
  hands_back_only a0 [] run2 = true /\
  run_calls a0 run2 =
    (mkResource 4096 64 16 [(4112, 7)], [4096; 4097; 4104]) /\
  15 - (4104 - 4097) - 8 = 0.
Proof. vm_compute. repeat split. Qed.

(** The entry [do_allocate] puts back, for any block: its size is the
    block's size minus [bytes], whatever the alignment skipped. *)
Lemma reuse_registry_after a bytes alignment pre blk post :
  wf_resource a -> 0 < bytes -> in_range bytes -> is_pow2 alignment ->
  free_list a = pre ++ blk :: post ->
  Forall (fun b => ~ can_contain alignment bytes b) pre ->
  can_contain alignment bytes blk ->
  allocate a bytes alignment =
  Ok (align_up alignment blk.1,
      set_free_list a
        (if 0 <? blk.2 - bytes
         then (pre ++ post) ++
              [(wrap (align_up alignment blk.1 + bytes), blk.2 - bytes)]
         else pre ++ post)).
Proof.
  intros Hwf Hpos Hbytes (k & Hk & Ha) Hfl Hno Hfit.
  pose proof (wf_free_list a Hwf) as Hblocks. rewrite Hfl in Hblocks.
  apply Forall_app in Hblocks as [Hpre Hrest].
  apply Forall_cons in Hrest as [Hblk _].
  unfold allocate, do_allocate. rewrite Hfl.
  rewrite (scan_free_list_first_fit bytes alignment k [] pre blk post);
    try solve [assumption | lia].
  reflexivity.
Qed.

(** * The high-water mark *)

Lemma std_align_ok alignment size p space :
  ar_ret (std_align alignment size p space) <> 0 ->
  size <= space /\
  wrap (ar_ret (std_align alignment size p space) - p) <= space - size.
Proof.
  unfold std_align.
  destruct (Z.ltb_spec space size); [now cbn |].
  cbv zeta.
  destruct (space - size <? _) eqn:Hdiff; [now cbn |].
  apply Z.ltb_ge in Hdiff.
  cbn [ar_ret]. intros _. split; lia.
Qed.

(** No call decreases [used], and [used] stays within the capacity. *)
Lemma allocate_used_monotone a bytes alignment p a' :
  0 <= bytes -> 0 <= used a <= buffer_size a -> in_range (buffer_size a) ->
  allocate a bytes alignment = Ok (p, a') ->
  used a <= used a' <= buffer_size a'.
Proof.
  intros Hbytes Hused Hcap. unfold allocate, do_allocate.
  destruct (scan_free_list _ _ _ _) as [[p0 fl] |].
  { intros [= <- <-]. cbn. lia. }
  unfold bump_allocate. cbv zeta.
  set (r := std_align alignment bytes (wrap (buffer a + used a))
              (wrap (buffer_size a - used a))).
  destruct (Z.eqb_spec (ar_ret r) 0) as [| Hnz]; [discriminate |].
  destruct (std_align_ok _ _ _ _ Hnz) as [Hfit Hdiff]. fold r in Hdiff.
  rewrite (wrap_small (buffer_size a - used a)) in Hfit, Hdiff
    by (unfold in_range in *; lia).
  pose proof (wrap_range (ar_ret r - wrap (buffer a + used a))) as Hw.
  unfold in_range in *.
  rewrite (wrap_small (used a + _ + bytes)) by (unfold in_range; lia).
  destruct (Z.ltb_spec (buffer_size a)
              (used a + wrap (ar_ret r - wrap (buffer a + used a)) + bytes));
    [discriminate |].
  intros [= <- <-]. cbn. lia.
Qed.

Lemma deallocate_used a p bytes alignment :
  used (deallocate a p bytes alignment) = used a /\
  buffer_size (deallocate a p bytes alignment) = buffer_size a /\
  buffer (deallocate a p bytes alignment) = buffer a.
Proof.
  unfold deallocate, do_deallocate. now destruct (p =? 0).
Qed.

Lemma run_calls_used a cs :
  0 <= used a <= buffer_size a -> in_range (buffer_size a) ->
  Forall call_in_range cs ->
  used a <= used (run_calls a cs).1 <= buffer_size a /\
  buffer_size (run_calls a cs).1 = buffer_size a /\
  buffer (run_calls a cs).1 = buffer a.
Proof.
  intros Hused Hcap Hcs. revert a Hused Hcap.
  induction Hcs as [| c cs Hc _ IH]; intros a Hused Hcap; [cbn; lia |].
  cbn [run_calls].
  destruct (do_call a c) as [a1 ps1] eqn:Hcall.
  assert (used a <= used a1 <= buffer_size a /\
          buffer_size a1 = buffer_size a /\ buffer a1 = buffer a)
    as (Hu1 & Hs1 & Hb1).
  { destruct c as [bytes alignment | p bytes alignment]; cbn in Hcall.
    - destruct (allocate a bytes alignment) as [[p a'] | e] eqn:Hal.
      + injection Hcall as <- <-.
        pose proof (allocate_ok_frame _ _ _ _ _ Hal) as (_ & Hb & Hs).
        pose proof (allocate_used_monotone a bytes alignment p a'
                      ltac:(cbn in Hc; unfold in_range in Hc; lia)
                      Hused Hcap Hal).
        rewrite <- Hs. repeat split; (lia || assumption).
      + injection Hcall as <- <-. repeat split; lia.
    - injection Hcall as <- <-.
      destruct (deallocate_used a p bytes alignment) as (-> & -> & ->).
      repeat split; lia. }
  specialize (IH a1 ltac:(lia) ltac:(now rewrite Hs1)).
  destruct (run_calls a1 cs) as [a2 ps2]. cbn [fst] in *.
  rewrite Hs1, Hb1 in IH. repeat split; lia.
Qed.

(** C9, evaluated on a run in which the client only hands back what
    [allocate] returned.  The arena has 64 bytes at address 4096, so its
    addresses are 4096 to 4159.  After the block [(4097, 63)] is freed,
    two calls [allocate(1, 32)] are served from the registry: the first
    at 4128, leaving the entry [(4129, 62)] that reaches past the
    buffer, the second at 4160, which is [buffer + capacity] and so
    outside the arena.  [used] stays at 64 throughout. *)
Theorem C9_returned_address_leaves_arena :
  let a0 := mkResource 4096 64 0 [] in
  let cs := [Alloc 1 1; Alloc 63 1; Dealloc 4097 63 1;
             Alloc 1 32; Alloc 1 32] in
  hands_back_only a0 [] cs = true /\
  run_calls a0 cs =
    (mkResource 4096 64 64 [(4161, 61)], [4096; 4097; 4128; 4160]) /\
  ~ (buffer a0 <= 4160 < buffer a0 + buffer_size a0) /\
  used (run_calls a0 cs).1 <= buffer_size a0.
Proof.
  vm_compute. repeat split; try discriminate.
  intros [_ Hlt]. discriminate Hlt.
Qed.

Lemma align_up_aligned alignment p :
  0 < alignment -> p mod alignment = 0 -> align_up alignment p = p.
Proof.
  intros Ha Hp.
  pose proof (align_up_bounds alignment p Ha).
  pose proof (align_up_least alignment p p Ha ltac:(lia) Hp). lia.
Qed.

Lemma is_pow2_8 : is_pow2 8.
Proof. exists 3. unfold size_bits. split; [lia | reflexivity]. Qed.

Lemma C1_witness :
  let a := mkResource 4096 1024 200 [(4100, 8); (4133, 64)] in
  let b := mkResource 4096 1024 203 [] in
  (exists a', allocate a 16 8 = Ok (4136, a') /\ used a' = 200) /\
  allocate b 16 8 = Ok (4304, set_used b 224).
Proof.
  intros a b.
  assert (Hwf_a : wf_resource a).
  { constructor; cbn; try range_lia.
    repeat (constructor; [range_lia |]). constructor. }
  assert (Hwf_b : wf_resource b).
  { constructor; cbn; try range_lia. constructor. }
  assert (Hpos : 0 < 16) by lia.
  assert (Hrange : in_range 16) by range_lia.
  assert (Hsmall : ~ can_contain 8 16 (4100, 8)).
  { intros (q & _ & Hlo & _ & Hhi). cbn in Hlo, Hhi. lia. }
  assert (Hfits : can_contain 8 16 (4133, 64)).
  { exists 4136. repeat split; range_lia. }
  assert (Hpre : Forall (fun blk => ~ can_contain 8 16 blk) [(4100, 8)])
    by (constructor; [exact Hsmall | constructor]).
  split.
  - destruct (proj1 (C1_allocate_first_fit_then_bump a 16 8
                       Hwf_a Hpos Hrange is_pow2_8)
                    [(4100, 8)] (4133, 64) [] eq_refl Hpre Hfits)
      as (q & a' & Hal & Hq & _ & _ & _ & Hused).
    exists a'. split; [| exact Hused].
    rewrite Hal, Hq. reflexivity.
  - destruct (proj2 (C1_allocate_first_fit_then_bump b 16 8
                       Hwf_b Hpos Hrange is_pow2_8) (Forall_nil_2 _))
      as (_ & _ & _ & Hbump).
    rewrite Hbump; [reflexivity | vm_compute; discriminate].
Defined.

(** * More about the arena *)

Lemma run_calls_app a cs1 cs2 :
  run_calls a (cs1 ++ cs2) =
  ((run_calls (run_calls a cs1).1 cs2).1,
   (run_calls a cs1).2 ++ (run_calls (run_calls a cs1).1 cs2).2).
Proof.
  revert a. induction cs1 as [| c cs1 IH]; intros a.
  - cbn. now destruct (run_calls a cs2).
  - cbn [app run_calls]. destruct (do_call a c) as [a1 ps1].
    rewrite IH. destruct (run_calls a1 cs1) as [a2 ps2]. cbn [fst snd].
    destruct (run_calls a2 cs2) as [a3 ps3]. cbn [fst snd].
    now rewrite app_assoc.
Qed.

(** Whatever the arena holds and whatever the client passes, an address
    that [allocate] returns is never null: a request that cannot be
    served throws instead. *)
Theorem allocate_never_returns_null a cs :
  Forall (fun p => p <> 0) (run_calls a cs).2.
Proof.
  revert a. induction cs as [| c cs IH]; intros a; [constructor |].
  cbn [run_calls]. destruct (do_call a c) as [a1 ps1] eqn:Hcall.
  specialize (IH a1). destruct (run_calls a1 cs) as [a2 ps2]. cbn [snd] in *.
  apply Forall_app. split; [| assumption].
  destruct c as [bytes alignment | p bytes alignment]; cbn in Hcall.
  - destruct (allocate a bytes alignment) as [[p a'] | e] eqn:Hal;
      injection Hcall as <- <-; [| constructor].
    apply allocate_ok_frame in Hal as [Hp _].
    now repeat constructor.
  - injection Hcall as <- <-. constructor.
Qed.

Lemma scan_free_list_length bytes alignment visited rest p fl :
  scan_free_list bytes alignment visited rest = Some (p, fl) ->
  (length fl <= length visited + length rest)%nat.
Proof.
  revert visited.
  induction rest as [| [ptr block_size] rest IH]; intros visited; [discriminate |].
  cbn [scan_free_list]. cbv zeta.
  destruct (ar_ret (std_align alignment bytes ptr block_size) =? 0).
  - intros Hs. apply IH in Hs. rewrite length_app in Hs. cbn in *. lia.
  - intros [= _ <-].
    destruct (0 <? _); repeat rewrite length_app; cbn [length]; lia.
Qed.

(** [allocate] never lengthens the registry (it removes one entry and
    puts back at most one), so after any run the registry has at most
    one entry more per [deallocate] call. *)
Theorem registry_grows_only_by_deallocate a cs :
  (length (free_list (run_calls a cs).1) <=
   length (free_list a) + count_deallocs cs)%nat.
Proof.
  revert a. induction cs as [| c cs IH]; intros a; [cbn; lia |].
  cbn [run_calls]. destruct (do_call a c) as [a1 ps1] eqn:Hcall.
  specialize (IH a1). destruct (run_calls a1 cs) as [a2 ps2]. cbn [fst] in *.
  destruct c as [bytes alignment | p bytes alignment]; cbn in Hcall |- *.
  - assert (length (free_list a1) <= length (free_list a))%nat; [| lia].
    unfold allocate, do_allocate in Hcall.
    destruct (scan_free_list _ _ _ _) as [[p0 fl] |] eqn:Hscan.
    + injection Hcall as <- <-. cbn.
      apply scan_free_list_length in Hscan. cbn in Hscan. lia.
    + destruct (bump_allocate a bytes alignment) as [[p a'] | e] eqn:Hb;
        injection Hcall as <- <-; [| lia].
      apply bump_allocate_ret in Hb as (_ & _ & _ & _ & -> & _). lia.
  - injection Hcall as <- <-.
    assert (length (free_list (deallocate a p bytes alignment)) <=
            S (length (free_list a)))%nat; [| lia].
    unfold deallocate, do_deallocate.
    destruct (p =? 0); cbn; rewrite ?length_app; cbn; lia.
Qed.

(** At any two moments of a run, the later [used] is at least the
    earlier one and at most the capacity; the buffer and the capacity
    never change. *)
Theorem used_is_monotone_and_bounded a cs1 cs2 :
  0 <= used a <= buffer_size a -> in_range (buffer_size a) ->
  Forall call_in_range (cs1 ++ cs2) ->
  used a <= used (run_calls a cs1).1 /\
  used (run_calls a cs1).1 <= used (run_calls a (cs1 ++ cs2)).1 /\
  used (run_calls a (cs1 ++ cs2)).1 <= buffer_size a /\
  buffer_size (run_calls a (cs1 ++ cs2)).1 = buffer_size a /\
  buffer (run_calls a (cs1 ++ cs2)).1 = buffer a.
Proof.
  intros Hused Hcap Hcs. apply Forall_app in Hcs as [Hcs1 Hcs2].
  destruct (run_calls_used a cs1 Hused Hcap Hcs1) as (Hu1 & Hs1 & Hb1).
  rewrite run_calls_app. cbn [fst].
  destruct (run_calls_used (run_calls a cs1).1 cs2) as (Hu2 & Hs2 & Hb2);
    try assumption; [lia | now rewrite Hs1 |].
  rewrite Hs2, Hb2, Hs1, Hb1. rewrite Hs1 in Hu2. repeat split; lia.
Qed.

Lemma used_is_monotone_and_bounded_witness :
  let a := mkResource 4096 256 0 [] in
  let cs1 := [Alloc 64 8; Dealloc 4096 64 8] in
  let cs2 := [Alloc 100 16; Alloc 200 1] in
  used (run_calls a cs1).1 = 64 /\
  used (run_calls a (cs1 ++ cs2)).1 = 164 /\
  used (run_calls a cs1).1 <= used (run_calls a (cs1 ++ cs2)).1.
Proof.
  intros a cs1 cs2.
  split; [reflexivity |]. split; [reflexivity |].
  assert (Hused : 0 <= used a <= buffer_size a) by (cbn; lia).
  assert (Hcap : in_range (buffer_size a)) by (cbn; range_lia).
  assert (Hcs : Forall call_in_range (cs1 ++ cs2)).
  { repeat (constructor; [cbn; try exact I; range_lia |]). constructor. }
  exact (proj1 (proj2 (used_is_monotone_and_bounded a cs1 cs2 Hused Hcap Hcs))).
Defined.

Lemma scan_free_list_small bytes alignment visited rest :
  Forall (fun b : FreeBlock => b.2 < bytes) rest ->
  scan_free_list bytes alignment visited rest = None.
Proof.
  intros Hsmall. revert visited.
  induction Hsmall as [| [ptr block_size] rest Hlt _ IH]; intros visited;
    [reflexivity |].
  cbn [scan_free_list]. cbv zeta. unfold std_align. cbn [snd] in Hlt.
  destruct (Z.ltb_spec block_size bytes); [| lia].
  cbn [ar_ret Z.eqb]. apply IH.
Qed.

(** No coalescing: when every registered block is smaller than the
    request, the request is served by the bump path, however many of
    the blocks lie side by side, and the registry is left as it was. *)
Theorem small_blocks_are_never_merged a bytes alignment :
  Forall (fun b : FreeBlock => b.2 < bytes) (free_list a) ->
  allocate a bytes alignment = bump_allocate a bytes alignment /\
  forall p a', allocate a bytes alignment = Ok (p, a') ->
               free_list a' = free_list a.
Proof.
  intros Hsmall.
  assert (Heq : allocate a bytes alignment = bump_allocate a bytes alignment).
  { unfold allocate, do_allocate.
    now rewrite (scan_free_list_small bytes alignment [] _ Hsmall). }
  split; [exact Heq |].
  intros p a' Hok. rewrite Heq in Hok.
  now apply bump_allocate_ret in Hok as (_ & _ & _ & _ & Hfl & _).
Qed.

Lemma small_blocks_are_never_merged_witness :
  let a := mkResource 4096 1024 200 [(4096, 100); (4196, 100)] in
  allocate a 150 1 = Ok (4296, set_used a 350).
Proof.
  intros a.
  assert (Hsmall : Forall (fun b : FreeBlock => b.2 < 150) (free_list a)).
  { repeat (constructor; [cbn; lia |]). constructor. }
  rewrite (proj1 (small_blocks_are_never_merged a 150 1 Hsmall)).
  reflexivity.
Defined.

(** A request is always served when the bytes after the high-water mark
    hold it together with the largest gap its alignment can cost. *)
Theorem allocate_succeeds_when_room a bytes alignment :
  is_pow2 alignment -> 0 < bytes -> in_range bytes ->
  0 < buffer a -> buffer a + buffer_size a <= size_mod ->
  0 <= used a ->
  used a + (alignment - 1) + bytes <= buffer_size a ->
  exists p a', allocate a bytes alignment = Ok (p, a').
Proof.
  intros (k & Hk & Hal) Hpos Hbytes Hbuf Hend Hused Hroom.
  pose proof (pow2_pos k ltac:(lia)) as Hapos. rewrite <- Hal in Hapos.
  unfold allocate, do_allocate.
  destruct (scan_free_list _ _ _ _) as [[p fl] |]; [eauto |].
  rewrite (bump_allocate_spec a bytes alignment k) by (assumption || lia).
  pose proof (align_up_bounds alignment (buffer a + used a) Hapos) as Hq.
  destruct (Z.ltb_spec (align_up alignment (buffer a + used a)) size_mod);
    [| lia].
  destruct (Z.leb_spec (align_up alignment (buffer a + used a) + bytes)
              (buffer a + buffer_size a)); [| lia].
  cbn [andb]. eauto.
Qed.

Lemma allocate_succeeds_when_room_witness :
  exists p a', allocate (mkResource 4099 1024 5 [(4096, 3)]) 128 16 = Ok (p, a').
Proof.
  apply allocate_succeeds_when_room; cbn; try range_lia.
  exists 4. unfold size_bits. split; [lia | reflexivity].
Defined.

(** Reuse round trip: a span that came from the bump path, handed back
    and asked for again with the same size and alignment, comes back at
    the same address and leaves the arena exactly as it was after the
    first call. *)
Theorem freed_block_is_reused_at_same_address a bytes alignment p a1 :
  wf_resource a -> 0 < bytes -> in_range bytes -> is_pow2 alignment ->
  Forall (fun b => ~ can_contain alignment bytes b) (free_list a) ->
  allocate a bytes alignment = Ok (p, a1) ->
  allocate (deallocate a1 p bytes alignment) bytes alignment = Ok (p, a1).
Proof.
  intros Hwf Hpos Hbytes (k & Hk & Hal) Hno Hok.
  pose proof (pow2_pos k ltac:(lia)) as Hapos. rewrite <- Hal in Hapos.
  unfold allocate in Hok.
  rewrite (do_allocate_bump a bytes alignment k Hk Hal Hbytes Hwf Hno) in Hok.
  set (q := align_up alignment (buffer a + used a)) in *.
  pose proof (align_up_bounds alignment (buffer a + used a) Hapos) as Hq.
  fold q in Hq.
  destruct Hwf as [Hbuf Hend Hused Hfl].
  destruct (Z.ltb_spec q size_mod); [| discriminate].
  destruct (Z.leb_spec (q + bytes) (buffer a + buffer_size a)); [| discriminate].
  cbn [andb] in Hok. injection Hok as <- <-.
  assert (Hq0 : q <> 0) by lia.
  assert (Hqmod : q mod alignment = 0) by now apply align_up_multiple.
  unfold allocate, deallocate, do_deallocate, do_allocate.
  destruct (Z.eqb_spec q 0); [contradiction |].
  cbn [free_list set_free_list set_used].
  assert (Hblk : wf_block (q, bytes)) by (split; cbn [fst snd]; [lia | assumption]).
  assert (Hfit : can_contain alignment bytes (q, bytes))
    by (exists q; unfold in_range; cbn [fst snd]; repeat split; lia).
  pose proof (scan_free_list_first_fit bytes alignment k [] (free_list a)
                (q, bytes) [] Hk Hal ltac:(lia) Hfl Hblk Hno Hfit) as Hscan.
  cbn [fst snd app] in Hscan. rewrite Hscan.
  rewrite Z.sub_diag. cbn [Z.ltb Z.compare].
  rewrite (align_up_aligned alignment q Hapos Hqmod), app_nil_r.
  reflexivity.
Qed.

Lemma freed_block_is_reused_at_same_address_witness :
  let a := mkResource 4096 256 0 [] in
  let a1 := mkResource 4096 256 64 [] in
  allocate a 64 8 = Ok (4096, a1) /\
  allocate (deallocate a1 4096 64 8) 64 8 = Ok (4096, a1).
Proof.
  intros a a1. split; [reflexivity |].
  apply (freed_block_is_reused_at_same_address a 64 8 4096 a1).
  - constructor; cbn; try range_lia. constructor.
  - lia.
  - range_lia.
  - exact is_pow2_8.
  - constructor.
  - reflexivity.
Defined.

Lemma scan_free_list_finds bytes alignment visited rest ptr block_size :
  (ptr, block_size) ∈ rest ->
  ar_ret (std_align alignment bytes ptr block_size) <> 0 ->
  exists r, scan_free_list bytes alignment visited rest = Some r.
Proof.
  intros Hin Hret. revert visited.
  induction rest as [| [ptr' size'] rest IH]; intros visited.
  - now apply elem_of_nil in Hin.
  - cbn [scan_free_list]. cbv zeta.
    destruct (Z.eqb_spec (ar_ret (std_align alignment bytes ptr' size')) 0)
      as [Hz | Hnz]; [| eauto].
    apply elem_of_cons in Hin as [[= <- <-] | Hin]; [contradiction |].
    now apply IH.
Qed.

(** Memory handed back is reusable at once: after [deallocate] of an
    aligned, non-null address, a request of the same size and alignment
    never throws, whatever else the arena holds. *)
Theorem allocate_after_deallocate_succeeds a p bytes alignment :
  is_pow2 alignment -> in_range bytes -> 0 < p -> in_range p ->
  p mod alignment = 0 ->
  exists q a',
    allocate (deallocate a p bytes alignment) bytes alignment = Ok (q, a').
Proof.
  intros (k & Hk & Hal) Hbytes Hp Hrange Hmod.
  pose proof (pow2_pos k ltac:(lia)) as Hapos. rewrite <- Hal in Hapos.
  assert (Hret : ar_ret (std_align alignment bytes p bytes) <> 0).
  { unfold in_range in *.
    destruct (std_align_cases alignment k bytes p bytes)
      as [(_ & _ & Heq) | [Hn _]]; try (assumption || lia).
    - rewrite Heq. cbn [ar_ret].
      rewrite (align_up_aligned alignment p Hapos Hmod). lia.
    - rewrite (align_up_aligned alignment p Hapos Hmod) in Hn. lia. }
  unfold allocate, deallocate, do_deallocate, do_allocate.
  destruct (Z.eqb_spec p 0); [lia |].
  cbn [free_list set_free_list].
  destruct (scan_free_list_finds bytes alignment []
              (free_list a ++ [(p, bytes)]) p bytes) as [[q fl] Hscan];
    [apply elem_of_app; right; now apply list_elem_of_singleton
    | assumption |].
  rewrite Hscan. eauto.
Qed.

Lemma allocate_after_deallocate_succeeds_witness :
  exists q a',
    allocate (deallocate (mkResource 4096 64 64 [(4100, 4)]) 4112 48 16) 48 16
    = Ok (q, a').
Proof.
  apply allocate_after_deallocate_succeeds; try range_lia.
  - exists 4. unfold size_bits. split; [lia | reflexivity].
  - reflexivity.
Defined.

(** Reuse of a block that starts at a multiple of the alignment is
    exact: the span is the head of the block, the block leaves the
    registry, the entries before and after it keep their order, and the
    rest of the block, when there is one, becomes the last entry. *)
Theorem reuse_of_aligned_block_is_exact a bytes alignment pre blk post :
  wf_resource a -> 0 < bytes -> in_range bytes -> is_pow2 alignment ->
  free_list a = pre ++ blk :: post ->
  Forall (fun b => ~ can_contain alignment bytes b) pre ->
  blk.1 mod alignment = 0 -> bytes <= blk.2 -> blk.1 + blk.2 <= size_mod ->
  allocate a bytes alignment =
  Ok (blk.1,
      set_free_list a
        (pre ++ post ++
         (if bytes <? blk.2 then [(blk.1 + bytes, blk.2 - bytes)] else []))).
Proof.
  intros Hwf Hpos Hbytes Hpow Hfl Hno Hmod Hle Hend.
  pose proof Hpow as (k & Hk & Hal).
  pose proof (pow2_pos k ltac:(lia)) as Hapos. rewrite <- Hal in Hapos.
  pose proof (wf_free_list a Hwf) as Hblocks. rewrite Hfl in Hblocks.
  apply Forall_app in Hblocks as [_ Hrest].
  apply Forall_cons in Hrest as [[Hp Hs] _].
  assert (Hfit : can_contain alignment bytes blk).
  { exists blk.1. unfold in_range. repeat split; lia. }
  rewrite (reuse_registry_after a bytes alignment pre blk post) by assumption.
  rewrite (align_up_aligned alignment blk.1 Hapos Hmod).
  destruct (Z.ltb_spec 0 (blk.2 - bytes)); destruct (Z.ltb_spec bytes blk.2);
    try lia.
  - rewrite (wrap_small (blk.1 + bytes)) by (unfold in_range; lia).
    now rewrite <- app_assoc.
  - now rewrite app_nil_r.
Qed.

Lemma reuse_of_aligned_block_is_exact_witness :
  let a := mkResource 4096 1024 512 [(4100, 4); (4160, 100); (4400, 8)] in
  allocate a 64 32 =
  Ok (4160, set_free_list a [(4100, 4); (4400, 8); (4224, 36)]).
Proof.
  intros a.
  apply (reuse_of_aligned_block_is_exact a 64 32 [(4100, 4)] (4160, 100)
           [(4400, 8)]); try range_lia.
  - constructor; cbn; try range_lia.
    repeat (constructor; [range_lia |]). constructor.
  - exact is_pow2_32.
  - reflexivity.
  - constructor; [| constructor].
    intros (q & _ & Hlo & _ & Hhi). cbn in Hlo, Hhi. lia.
  - reflexivity.
Defined.

(** Without reuse the arena is a plain bump allocator: the spans a
    client gets from an arena with an empty registry lie one after the
    other in call order, from the old high-water mark to the new one,
    each at a multiple of its alignment; the new mark is inside the
    buffer and the registry is still empty. *)
Theorem allocate_only_gives_ascending_spans a reqs :
  wf_resource a -> free_list a = [] ->
  Forall (fun r : Z * Z => in_range r.1 /\ is_pow2 r.2) reqs ->
  ascending (buffer a + used a)
            (buffer a + used (alloc_all a reqs).1)
            (alloc_all a reqs).2 /\
  used (alloc_all a reqs).1 <= buffer_size a /\
  free_list (alloc_all a reqs).1 = [].
Proof.
  intros Hwf Hfl Hreqs. revert a Hwf Hfl.
  induction Hreqs as [| [bytes alignment] reqs [Hbytes Hpow] _ IH];
    intros a Hwf Hfl.
  - cbn. destruct Hwf as [_ _ Hused _]. repeat split; (lia || assumption).
  - cbn [alloc_all fst snd] in *.
    destruct Hpow as (k & Hk & Hal).
    pose proof (pow2_pos k ltac:(lia)) as Hapos. rewrite <- Hal in Hapos.
    unfold allocate.
    rewrite (do_allocate_bump a bytes alignment k Hk Hal Hbytes Hwf)
      by (rewrite Hfl; constructor).
    set (q := align_up alignment (buffer a + used a)).
    pose proof (align_up_bounds alignment (buffer a + used a) Hapos) as Hq.
    fold q in Hq.
    destruct Hwf as [Hbuf Hend Hused Hblocks].
    destruct ((q <? size_mod) && (q + bytes <=? buffer a + buffer_size a))
      eqn:Hroom.
    + apply andb_true_iff in Hroom as [Hlt Hle].
      apply Z.ltb_lt in Hlt. apply Z.leb_le in Hle.
      unfold in_range in Hbytes.
      assert (Hwf' : wf_resource (set_used a (q + bytes - buffer a)))
        by (constructor; cbn; (lia || assumption)).
      specialize (IH _ Hwf' Hfl).
      destruct (alloc_all (set_used a (q + bytes - buffer a)) reqs)
        as [a2 got]. cbn [fst snd buffer used buffer_size set_used] in *.
      destruct IH as (Hasc & Hu & Hfl2).
      replace (buffer a + (q + bytes - buffer a)) with (q + bytes) in Hasc
        by lia.
      repeat split; try (lia || assumption).
      now apply align_up_multiple.
    + apply IH; [constructor |]; assumption.
Qed.

Lemma allocate_only_gives_ascending_spans_witness :
  let a := mkResource 4099 1024 0 [] in
  let reqs := [(64, 8); (2000, 1); (128, 16)] in
  (alloc_all a reqs).2 = [(4104, 64, 8); (4176, 128, 16)] /\
  ascending 4099 (4099 + 205) (alloc_all a reqs).2.
Proof.
  intros a reqs. split; [reflexivity |].
  assert (Hwf : wf_resource a)
    by (constructor; cbn; try range_lia; constructor).
  assert (Hreqs : Forall (fun r : Z * Z => in_range r.1 /\ is_pow2 r.2) reqs).
  { constructor; [split; [range_lia | exact is_pow2_8] |].
    constructor; [split; [range_lia | exact is_pow2_1] |].
    constructor; [split; [range_lia |] | constructor].
    exists 4. unfold size_bits. split; [lia | reflexivity]. }
  exact (proj1 (allocate_only_gives_ascending_spans a reqs Hwf eq_refl Hreqs)).
Defined.

(** * Moves *)

(** The target of a move takes over the source's arena as it was, and a
    move assignment of an object to itself changes nothing.  The
    moved-from object is exhausted: it has no buffer left to bump, so a
    request larger than every entry its list may still hold throws
    [bad_alloc]; with an empty list every request does. *)
Theorem moved_from_resource_is_exhausted other self leftover bytes alignment :
  in_range bytes -> is_pow2 alignment ->
  Forall (fun b : FreeBlock => b.2 < bytes) leftover ->
  (move_construct other leftover).1 = other /\
  allocate (move_construct other leftover).2 bytes alignment = Throw bad_alloc /\
  move_assign self other false leftover = move_construct other leftover /\
  move_assign self other true leftover = (self, self).
Proof.
  intros Hbytes (k & Hk & Hal) Hsmall.
  pose proof (pow2_pos k ltac:(lia)) as Hapos. rewrite <- Hal in Hapos.
  split_and!; try reflexivity.
  - now destruct other.
  - cbn [move_construct snd].
    unfold allocate, do_allocate. cbn [free_list moved_from].
    rewrite (scan_free_list_small bytes alignment [] leftover Hsmall).
    unfold bump_allocate. cbv zeta.
    change (buffer (moved_from leftover)) with 0.
    change (buffer_size (moved_from leftover)) with 0.
    change (used (moved_from leftover)) with 0.
    change (wrap (0 - 0)) with 0. change (wrap (0 + 0)) with 0.
    assert (Hret : ar_ret (std_align alignment bytes 0 0) = 0).
    { unfold in_range in Hbytes.
      destruct (std_align_cases alignment k bytes 0 0)
        as [(_ & _ & Heq) | [_ Hret]];
        try (assumption || unfold in_range; rewrite ?size_mod_eq; lia).
      rewrite Heq. cbn [ar_ret]. now apply align_up_0. }
    now rewrite Hret.
Qed.

Lemma moved_from_resource_is_exhausted_witness :
  let other := mkResource 4096 1024 64 [(4096, 64)] in
  (move_construct other []).1 = other /\
  allocate (move_construct other []).2 8 8 = Throw bad_alloc.
Proof.
  intros other.
  assert (Hbytes : in_range 8) by range_lia.
  destruct (moved_from_resource_is_exhausted other other [] 8 8
              Hbytes is_pow2_8 (Forall_nil_2 _)) as (Hto & Hfrom & _).
  split; [exact Hto | exact Hfrom].
Defined.

(** * The stack as it is written *)

Lemma linked_iterate {T : Type} (h : gmap Z (Node T)) p cells fuel :
  linked h p cells -> (length cells <= fuel)%nat ->
  iterate fuel h p = Some cells.*2.
Proof.
  revert p fuel. induction cells as [| [c v] cells IH]; intros p fuel.
  - cbn. intros -> _. now destruct fuel.
  - cbn [linked length]. intros (-> & Hc & nxt & Hlook & Hrest) Hfuel.
    destruct fuel as [| fuel]; [lia |].
    cbn [iterate]. unfold end_, iter_deref, iter_incr.
    destruct (Z.eqb_spec c 0); [contradiction |].
    rewrite Hlook. cbn.
    rewrite (IH nxt fuel Hrest) by lia. reflexivity.
Qed.

Lemma linked_count {T : Type} (h : gmap Z (Node T)) p cells fuel :
  linked h p cells -> (length cells <= fuel)%nat ->
  count_nodes fuel h p = Some (length cells).
Proof.
  revert p fuel. induction cells as [| [c v] cells IH]; intros p fuel.
  - cbn. intros -> _. now destruct fuel.
  - cbn [linked length]. intros (-> & Hc & nxt & Hlook & Hrest) Hfuel.
    destruct fuel as [| fuel]; [lia |].
    cbn [count_nodes].
    destruct (Z.eqb_spec c 0); [contradiction |].
    rewrite Hlook. cbn.
    rewrite (IH nxt fuel Hrest) by lia. reflexivity.
Qed.

(** The functions that only read the chain: in any memory where
    following [next] from the head visits the live nodes [cells] and
    ends in null, [size] is their number, the iteration from [begin()]
    to [end()] yields their values in order, [top] is the first value,
    and [empty] holds exactly when there is no node. *)
Theorem readers_follow_the_chain {T : Type}
    (m : Memory T) (s : Stack) (cells : list (Z * T)) fuel :
  linked (nodes m) (top_node s) cells -> (length cells <= fuel)%nat ->
  size fuel m s = Some (length cells) /\
  to_list fuel m s = Some cells.*2 /\
  top m s = head cells.*2 /\
  (empty s = true <-> cells = []).
Proof.
  intros Hlinked Hfuel. split_and!.
  - now apply linked_count.
  - now apply linked_iterate.
  - unfold top. destruct cells as [| [c v] cells]; cbn in Hlinked |- *.
    + now rewrite Hlinked.
    + destruct Hlinked as (-> & Hc & nxt & Hlook & _).
      destruct (Z.eqb_spec c 0); [contradiction |]. now rewrite Hlook.
  - unfold empty. destruct cells as [| [c v] cells]; cbn in Hlinked.
    + rewrite Hlinked. now split.
    + destruct Hlinked as (-> & Hc & _).
      destruct (Z.eqb_spec c 0); [contradiction |]. split; discriminate.
Qed.

Lemma readers_follow_the_chain_witness :
  let m : Memory Z :=
    mkMemory ∅ {[ 4112 := mkNode 20 4096; 4096 := mkNode 10 0 ]} in
  let s := mkStack 4112 8192 in
  size 2 m s = Some 2%nat /\ to_list 2 m s = Some [20; 10] /\
  top m s = Some 20 /\ empty s = false.
Proof.
  intros m s.
  assert (Hlinked : linked (nodes m) (top_node s) [(4112, 20); (4096, 10)]).
  { cbn. split; [reflexivity |]. split; [lia |].
    exists 4096. split; [reflexivity |].
    split; [reflexivity |]. split; [lia |].
    exists 0. split; reflexivity. }
  assert (Hfuel : (length [(4112, 20); (4096, 10)] <= 2)%nat) by (cbn; lia).
  destruct (readers_follow_the_chain m s _ 2%nat Hlinked Hfuel)
    as (Hsize & Hlist & Htop & _).
  split_and!; try assumption. reflexivity.
Defined.

Lemma iterate_dead {T : Type} (h : gmap Z (Node T)) p fuel :
  h !! p = None -> p <> 0 -> iterate fuel h p = None.
Proof.
  intros Hdead Hp. destruct fuel; cbn [iterate]; unfold end_;
    (destruct (Z.eqb_spec p 0); [contradiction |]); [reflexivity |].
  unfold iter_deref. now rewrite Hdead.
Qed.

(** A request on an arena with an empty registry and an aligned
    high-water mark is served right at the mark. *)
Lemma allocate_at_mark a bytes alignment k :
  0 <= k < size_bits -> alignment = 2 ^ k -> 0 < bytes -> in_range bytes ->
  0 < buffer a -> buffer a + buffer_size a <= size_mod ->
  0 <= used a -> used a + bytes <= buffer_size a ->
  free_list a = [] -> (buffer a + used a) mod alignment = 0 ->
  allocate a bytes alignment =
  Ok (buffer a + used a, set_used a (used a + bytes)).
Proof.
  intros Hk Hal Hpos Hbytes Hbuf Hend Hused Hroom Hfl Hmod.
  pose proof (pow2_pos k ltac:(lia)) as Hapos. rewrite <- Hal in Hapos.
  unfold allocate, do_allocate. rewrite Hfl. cbn [scan_free_list].
  rewrite (bump_allocate_spec a bytes alignment k) by (assumption || lia).
  rewrite (align_up_aligned alignment _ Hapos Hmod).
  destruct (Z.ltb_spec (buffer a + used a) size_mod); [| lia].
  destruct (Z.leb_spec (buffer a + used a + bytes)
              (buffer a + buffer_size a)); [| lia].
  cbn [andb]. do 3 f_equal. lia.
Qed.

(** What the written request does for every element type: a node is
    larger than its value, so on a fresh arena the second push builds
    its node [sizeof(T)] bytes after the first, inside it; the first
    node's lifetime ends and the iteration is undefined. *)
Lemma second_push_ends_first_node {T : Type} `{NodeType T}
    ra buf size0 k (v1 v2 : T) :
  0 <= k < size_bits -> alignof_value = 2 ^ k ->
  0 < sizeof_value < sizeof_node -> in_range sizeof_value ->
  sizeof_value mod alignof_value = 0 ->
  0 < buf -> buf mod alignof_value = 0 -> buf + size0 <= size_mod ->
  2 * sizeof_value <= size0 ->
  ctor_throws v1 = false -> ctor_throws v2 = false ->
  exists m1 s1 m2 s2,
    push (mkMemory {[ ra := mkResource buf size0 0 [] ]} ∅) (new_stack ra) v1
      = Some (Done (m1, s1)) /\
    top_node s1 = buf /\
    push m1 s1 v2 = Some (Done (m2, s2)) /\
    top_node s2 = buf + sizeof_value /\
    nodes m2 !! buf = None /\
    forall fuel, to_list fuel m2 s2 = None.
Proof.
  intros Hk Hal Hsv Hrange Hmul Hbuf Hmod Hend Hroom Hv1 Hv2.
  pose proof (pow2_pos k ltac:(lia)) as Hapos. rewrite <- Hal in Hapos.
  assert (Hal1 : allocate (mkResource buf size0 0 []) sizeof_value alignof_value
                 = Ok (buf, mkResource buf size0 sizeof_value [])).
  { rewrite (allocate_at_mark _ sizeof_value alignof_value k);
      cbn [buffer buffer_size used free_list set_used];
      rewrite ?Z.add_0_r; try (assumption || reflexivity || lia). }
  assert (Hmod2 : (buf + sizeof_value) mod alignof_value = 0).
  { rewrite Z.add_mod, Hmod, Hmul by lia. reflexivity. }
  assert (Hal2 : allocate (mkResource buf size0 sizeof_value [])
                   sizeof_value alignof_value
                 = Ok (buf + sizeof_value,
                       mkResource buf size0 (sizeof_value + sizeof_value) [])).
  { rewrite (allocate_at_mark _ sizeof_value alignof_value k);
      cbn [buffer buffer_size used free_list set_used];
      try (assumption || reflexivity || lia). }
  set (h2 := construct_at (construct_at ∅ buf (mkNode v1 0))
              (buf + sizeof_value) (mkNode v2 buf)).
  assert (Hhead : h2 !! (buf + sizeof_value) = Some (mkNode v2 buf))
    by apply lookup_insert_eq.
  assert (Hdead : h2 !! buf = None).
  { unfold h2, construct_at at 1.
    rewrite lookup_insert_ne by lia.
    apply map_lookup_filter_None. right. intros n _ Hno. apply Hno.
    unfold overlaps. cbn [fst]. lia. }
  exists (mkMemory {[ ra := mkResource buf size0 sizeof_value [] ]}
                   (construct_at ∅ buf (mkNode v1 0))),
         (mkStack buf ra),
         (mkMemory (<[ ra := mkResource buf size0
                               (sizeof_value + sizeof_value) [] ]>
                      {[ ra := mkResource buf size0 sizeof_value [] ]}) h2),
         (mkStack (buf + sizeof_value) ra).
  split_and!; try (assumption || reflexivity).
  - unfold push. cbn [resources alloc new_stack top_node nodes].
    rewrite lookup_singleton_eq, Hal1, Hv1.
    now rewrite insert_singleton_eq.
  - unfold push. cbn [resources alloc top_node nodes].
    rewrite lookup_singleton_eq, Hal2, Hv2. reflexivity.
  - intros fuel. unfold to_list, begin_. cbn [top_node nodes].
    destruct fuel as [| fuel]; cbn [iterate]; unfold end_;
      (destruct (Z.eqb_spec (buf + sizeof_value) 0); [lia |]);
      [reflexivity |].
    unfold iter_deref, iter_incr. rewrite Hhead. cbn [fmap option_fmap option_map value next].
    rewrite (iterate_dead h2 buf fuel Hdead) by lia. reflexivity.
Qed.



